(** * Static and dynamic behaviour of the TypeScript demonstration scripts

    The repository holds three flat scripts (src/main.ts and two further
    revisions of it, one of them the JavaScript emitted by the compiler).
    Each script is a sequence of declarations and statements that show how
    arrays, tuples, literal unions, enums, [any] and [unknown] behave at the
    checking stage (the type checker) and at the execution stage (the
    JavaScript run).

    The development follows the scripts section by section:
    - [Js]        run-time values, uncaught exceptions, arrays, property lookup;
    - [Arrays]    the [coord] / [tuple] / [direction] statements;
    - [Literals]  the validation of a direction token;
    - [Enums]     the [Numbers] and [Size] enums and the emitted [Size] object;
    - [Dynamic]   the [any] and [unknown] variables. *)

From stdpp Require Import base list strings gmap pretty.
From Stdlib Require Import ZArith Lia.

Local Open Scope Z_scope.
Local Open Scope string_scope.

(** ** Run-time values *)

Module Js.

(** JavaScript values that occur in the scripts.  Numbers are the integer
    literals of the scripts; an object is a finite map from property names
    to values; [JError] is an instance of [Error] with its message; [JFun]
    names a built-in method found on a prototype. *)
#[warnings="-register-all"]
Inductive jsval : Type :=
| JUndefined
| JNum (n : Z)
| JStr (s : string)
| JObj (fields : gmap string jsval)
| JError (message : string)
| JFun (name : string).

(** An uncaught exception ends the run. *)
Inductive result (A : Type) : Type :=
| Ok (a : A)
| Throw (error : string).
Arguments Ok {A} a.
Arguments Throw {A} error.

Definition bind {A B} (r : result A) (k : A → result B) : result B :=
  match r with
  | Ok a => k a
  | Throw e => Throw e
  end.

Definition is_ok {A} (r : result A) : bool :=
  match r with Ok _ => true | Throw _ => false end.

(** *** Arrays

    An array is the list of its elements; a hole reads as [undefined]. *)

(** [a.length] *)
Definition array_length (a : list jsval) : nat := length a.

(** [a[i]] as an expression: an index outside the array reads [undefined]. *)
Definition array_get (a : list jsval) (i : nat) : jsval :=
  default JUndefined (a !! i).

(** [a[i] = v]: an index inside the array replaces the element, an index
    outside extends the array up to that index. *)
Definition array_set (a : list jsval) (i : nat) (v : jsval) : list jsval :=
  if decide (i < length a)%nat
  then <[i:=v]> a
  else a ++ replicate (i - length a) JUndefined ++ [v].

(** [a.push(v)] *)
Definition array_push (a : list jsval) (v : jsval) : list jsval := a ++ [v].


(** *** Objects *)

(** A number used as a property name is converted to its decimal string:
    [o[100]] and [o["100"]] are the same property.  This is the name for
    integers below 10^21 in absolute value; from there on the run time
    uses the exponent form. *)
Definition prop_key (n : Z) : string := pretty n.

(** [o[k]] on an object: a missing property reads [undefined]. *)
Definition obj_get (o : gmap string jsval) (k : string) : jsval :=
  default JUndefined (o !! k).

(** [typeof v] *)
Definition typeof (v : jsval) : string :=
  match v with
  | JUndefined => "undefined"
  | JNum _ => "number"
  | JStr _ => "string"
  | JObj _ | JError _ => "object"
  | JFun _ => "function"
  end.

(** [v instanceof Error] *)
Definition instanceof_Error (v : jsval) : bool :=
  match v with JError _ => true | _ => false end.

(** *** Members of a value

    Own properties, and of the built-in properties and methods those that
    the scripts name: [length] and [toUpperCase] on strings, [toFixed] on
    numbers, [message] on errors.  [None] is a member that does not
    exist; the built-ins that the scripts do not name ([trim],
    [toString], ...) are not listed and read as missing too.  [length]
    counts the characters of a string of ASCII text. *)
Definition member (v : jsval) (name : string) : option jsval :=
  match v with
  | JStr s =>
      if String.eqb name "length" then Some (JNum (Z.of_nat (String.length s)))
      else if String.eqb name "toUpperCase" then Some (JFun "toUpperCase")
      else None
  | JNum _ =>
      if String.eqb name "toFixed" then Some (JFun "toFixed") else None
  | JObj o => o !! name
  | JError m =>
      if String.eqb name "message" then Some (JStr m) else None
  | JUndefined | JFun _ => None
  end.

Definition upper_ascii (c : Ascii.ascii) : Ascii.ascii :=
  let n := Ascii.nat_of_ascii c in
  if (97 <=? n)%nat && (n <=? 122)%nat then Ascii.ascii_of_nat (n - 32) else c.

(** [s.toUpperCase()] on ASCII text: the letters a-z are replaced and
    every other character is kept.  Text outside ASCII is left as it is,
    where the run time would upper-case it too. *)
Fixpoint to_upper (s : string) : string :=
  match s with
  | EmptyString => EmptyString
  | String c s' => String (upper_ascii c) (to_upper s')
  end.

(** [n.toFixed(d)] for an integer [n] below 10^21 in absolute value: its
    decimal form followed, when [d] is positive, by a point and [d] zeros
    (from 10^21 on the run time answers in exponent form). *)
Definition to_fixed (n : Z) (d : nat) : string :=
  match d with
  | O => pretty n
  | S _ => pretty n +:+ "." +:+ String.concat "" (replicate d "0")
  end.

(** Calling a built-in method with [this] bound to [v].  [toFixed] takes
    the number of digits, 0 when absent, and throws outside 0..100; the
    scripts pass a number, and an argument of another kind counts as
    absent. *)
Definition call_builtin (name : string) (v : jsval) (args : list jsval)
  : result jsval :=
  match v with
  | JStr s =>
      if String.eqb name "toUpperCase" then Ok (JStr (to_upper s))
      else Throw "TypeError: incompatible receiver"
  | JNum n =>
      if String.eqb name "toFixed" then
        match args with
        | JNum d :: _ =>
            if (0 <=? d)%Z && (d <=? 100)%Z
            then Ok (JStr (to_fixed n (Z.to_nat d)))
            else Throw "RangeError: toFixed() digits argument must be between 0 and 100"
        | _ => Ok (JStr (to_fixed n 0))
        end
      else Throw "TypeError: incompatible receiver"
  | _ => Throw "TypeError: incompatible receiver"
  end.

(** [v.p]: reading a property of [undefined] throws; on any other value
    a member that does not exist reads [undefined]. *)
Definition get_prop (v : jsval) (p : string) : result jsval :=
  match v with
  | JUndefined => Throw "TypeError: Cannot read properties of undefined"
  | _ => Ok (default JUndefined (member v p))
  end.

(** [v.m(args)]: the member is read, then called; calling anything but a
    function throws. *)
Definition call_method (v : jsval) (m : string) (args : list jsval)
  : result jsval :=
  bind (get_prop v m) (λ f,
    match f with
    | JFun name => call_builtin name v args
    | _ => Throw "TypeError: not a function"
    end).

End Js.

(** ** Arrays and tuples (main.ts 5-11 and 26-36, and the same lines of the
    two other revisions) *)

Module Arrays.
Import Js.

(** How the variable is bound. *)
Inductive binding := Const | Let.

(** The two annotations of the scripts: [number[]] and a tuple of numbers
    of a fixed arity ([[number, number]] is [NumTuple 2]). *)
Inductive aty :=
| NumArray
| NumTuple (arity : nat).

(** [const coord: number[] = [1, 2]] and [let tuple: [number, number] = [1, 2]]. *)
Record decl := Decl {
  d_binding : binding;
  d_type : aty;
  d_init : list Z
}.

(** The statements the scripts apply to such a variable [x], with literal
    indices as in the scripts.  These are the forms that occur in the
    scripts and no others: the further methods of arrays ([pop], [shift],
    [splice], ...) and writes at a computed index are not part of the
    model. *)
Inductive astmt :=
| SetIndex (i : nat) (v : Z)   (* x[i] = v *)
| Push (v : Z)                 (* x.push(v) *)
| Assign (vs : list Z)         (* x = [v0, v1, ...] *)
| LogLength                    (* console.log(x.length) *)
| LogIndex (i : nat).          (* console.log(x[i]) *)

(** *** Checking stage *)

(** An array literal of numbers is assignable to [number[]] whatever its
    length, and to a tuple type only when it has exactly the tuple's arity
    (main.ts 31: "Source has 3 element(s) but target allows only 2"). *)
Definition literal_assignable (t : aty) (vs : list Z) : bool :=
  match t with
  | NumArray => true
  | NumTuple n => bool_decide (length vs = n)
  end.

Definition check_decl (d : decl) : bool :=
  literal_assignable (d_type d) (d_init d).

(** The checker's verdict on one statement.
    - an element write or read at a literal index is checked against the
      arity of a tuple (main.ts 29 and 36: "Tuple type '[number, number]' of
      length '2' has no element at index '2'") and never against the length
      of an array (main.ts 11: "would compile");
    - [push] is a method of every array type, tuple types included, and
      takes values of the element type: the call with a number is accepted
      (it is the one flagged tuple statement that all three revisions keep,
      and that the emitted script contains), except on the empty tuple,
      which has no element type to take;
    - a whole-value assignment needs a [let] binding (main.ts 8: "Cannot
      assign to 'coord' because it is a constant") and an assignable
      literal. *)
Definition check_stmt (d : decl) (s : astmt) : bool :=
  match s with
  | SetIndex i _ | LogIndex i =>
      match d_type d with
      | NumArray => true
      | NumTuple n => bool_decide (i < n)%nat
      end
  | Push _ =>
      match d_type d with
      | NumTuple O => false
      | _ => true
      end
  | Assign vs =>
      match d_binding d with
      | Const => false
      | Let => literal_assignable (d_type d) vs
      end
  | LogLength => true
  end.

(** *** Execution stage

    The emitted script has no types left (part_000 declares every variable
    with [var]): a tuple is an ordinary array.  Execution does not look at
    the checker's verdict either: the statements of main.ts that the
    checker rejects (lines 29 and 31) stand in the script like the others
    and run with it. *)

Record state := State {
  arr : list jsval;      (* the array bound to the variable *)
  stdout : list jsval    (* what console.log has printed so far *)
}.

Definition numbers (vs : list Z) : list jsval := JNum <$> vs.

Definition init (d : decl) : state :=
  {| arr := numbers (d_init d); stdout := [] |}.

Definition exec_stmt (s : astmt) (st : state) : result state :=
  match s with
  | SetIndex i v => Ok {| arr := array_set (arr st) i (JNum v); stdout := stdout st |}
  | Push v => Ok {| arr := array_push (arr st) (JNum v); stdout := stdout st |}
  | Assign vs => Ok {| arr := numbers vs; stdout := stdout st |}
  | LogLength =>
      Ok {| arr := arr st;
            stdout := stdout st ++ [JNum (Z.of_nat (array_length (arr st)))] |}
  | LogIndex i =>
      Ok {| arr := arr st; stdout := stdout st ++ [array_get (arr st) i] |}
  end.

Fixpoint exec_stmts (ss : list astmt) (st : state) : result state :=
  match ss with
  | [] => Ok st
  | s :: ss' => bind (exec_stmt s st) (exec_stmts ss')
  end.

(** *** The scripts *)

Record program := Program {
  p_decl : decl;
  p_body : list astmt
}.

Definition check_program (p : program) : bool :=
  check_decl (p_decl p) && forallb (check_stmt (p_decl p)) (p_body p).

(** The statements of a program that the checker rejects. *)
Definition rejected (p : program) : list astmt :=
  filter (λ s, check_stmt (p_decl p) s = false) (p_body p).

Definition run (p : program) : result state :=
  exec_stmts (p_body p) (init (p_decl p)).

(** main.ts 5-10 *)
Definition main_coord : program :=
  {| p_decl := Decl Const NumArray [1; 2];
     p_body := [SetIndex 0 5; Push 3; LogLength; LogIndex 2] |}.

(** main.ts 26-35.  The variable is bound with [let]: the comment of line
    30 about a constant belongs to an earlier [const], and the assignment
    of a pair there is an accepted statement. *)
Definition main_direction : program :=
  {| p_decl := Decl Let (NumTuple 2) [1; 2];
     p_body := [SetIndex 0 5; Push 3; SetIndex 2 3; Assign [4; 5];
                Assign [4; 5; 6]; LogLength; LogIndex 0; LogIndex 1] |}.

(** part_001 5-7 and its emitted form part_000 4-6 *)
Definition coord : program :=
  {| p_decl := Decl Const NumArray [1; 2];
     p_body := [SetIndex 0 5; Push 3] |}.


End Arrays.

(** ** Literal types (part_001 81-95, emitted as part_000 74-87) *)

Module Literals.
Import Js.

(** The members of the union ["north" | "south" | "east" | "west"]. *)
Definition directions : list string := ["north"; "south"; "east"; "west"].

(** Checking stage: a string literal is assignable to the union only when
    it is one of its members (part_001 82: [direction = "hello"] is
    rejected). *)
Definition check_assign_literal (s : string) : bool :=
  bool_decide (s ∈ directions).

Record state := State {
  direction : jsval;        (* the variable [direction] *)
  stderr : list string      (* what console.error has printed so far *)
}.

(** [let direction] declares the variable without binding a value. *)
Definition init : state := {| direction := JUndefined; stderr := [] |}.

(** The test of the [if]. *)
Definition is_direction (input : string) : bool :=
  String.eqb input "north" || String.eqb input "south"
  || String.eqb input "east" || String.eqb input "west".

(** The [if] statement, as a function of [input]. *)
Definition validate (input : string) (st : state) : state :=
  if is_direction input
  then {| direction := JStr input; stderr := stderr st |}
  else {| direction := direction st;
          stderr := stderr st ++ ["Invalid direction entered."] |}.

(** The script binds [input] to "north". *)
Definition script : state := validate "north" init.

End Literals.

(** ** Enums (part_001 102-126, and the emitted [Size] of part_000 92-99) *)

Module Enums.
Import Js.

(** The initializer of an enum member. *)
Inductive initializer :=
| NoInit
| NumInit (n : Z)
| StrInit (s : string).

(** The value a member is bound to. *)
Inductive evalue :=
| ENum (n : Z)
| EStr (s : string).

(** The values of the members of a declaration.  [next] is the value a
    member without initializer takes: 0 at the start of a declaration, one
    more than the previous member after a numeric member, and none after a
    string member (such a member must have an initializer).  The values
    are integers; the compiler counts in double precision, which is the
    same as long as the values are safe integers (below 2^53 in absolute
    value). *)
Fixpoint elaborate (next : option Z) (ms : list (string * initializer))
  : option (list (string * evalue)) :=
  match ms with
  | [] => Some []
  | (l, NumInit n) :: ms' => cons (l, ENum n) <$> elaborate (Some (n + 1)) ms'
  | (l, StrInit s) :: ms' => cons (l, EStr s) <$> elaborate None ms'
  | (l, NoInit) :: ms' =>
      match next with
      | Some n => cons (l, ENum n) <$> elaborate (Some (n + 1)) ms'
      | None => None
      end
  end.

Definition enum_values (ms : list (string * initializer))
  : option (list (string * evalue)) :=
  elaborate (Some 0) ms.

(** The value bound to a label. *)
Definition value_of (vs : list (string * evalue)) (l : string) : option evalue :=
  (λ im, snd (snd im)) <$> list_find (λ m, fst m = l) vs.

(** The emitted object: a numeric member [L = n] becomes
    [E[E["L"] = n] = "L"], which sets the property [L] to [n] and then the
    property [n] to ["L"]; a string member [L = s] becomes [E["L"] = s]. *)
Definition emit_member (o : gmap string jsval) (m : string * evalue)
  : gmap string jsval :=
  match m with
  | (l, ENum n) => <[prop_key n := JStr l]> (<[l := JNum n]> o)
  | (l, EStr s) => <[l := JStr s]> o
  end.

Definition emit (o : gmap string jsval) (vs : list (string * evalue))
  : gmap string jsval :=
  foldl emit_member o vs.

(** part_001 102-107 *)
Definition Numbers : list (string * initializer) :=
  [("Zero", NoInit); ("One", NoInit); ("Two", NoInit); ("Three", NoInit)].

(** part_001 111-115 *)
Definition Size : list (string * initializer) :=
  [("Small", NumInit 100); ("Medium", NoInit); ("Large", NoInit)].

(** part_001 121-126: a second declaration of [Size], merged with the
    first. *)
Definition Size_strings : list (string * initializer) :=
  [("Up", StrInit "UP"); ("Down", StrInit "DOWN");
   ("Left", StrInit "LEFT"); ("Right", StrInit "RIGHT")].

(** part_000 92-97, statement by statement. *)
Definition Size_js : gmap string jsval :=
  let Size : gmap string jsval := ∅ in
  let Size := <[prop_key 100 := JStr "Small"]> (<["Small" := JNum 100]> Size) in
  let Size := <[prop_key 101 := JStr "Medium"]> (<["Medium" := JNum 101]> Size) in
  let Size := <[prop_key 102 := JStr "Large"]> (<["Large" := JNum 102]> Size) in
  Size.

(** The object of part_001 once the second declaration of [Size] has
    added its members to it. *)
Definition Size_merged : option (gmap string jsval) :=
  emit Size_js <$> enum_values Size_strings.

(** part_000 98-99: [var size = Size.Medium; console.log(size)]; the
    result is what is printed. *)
Definition size_script : list jsval :=
  let size := obj_get Size_js "Medium" in
  [size].

(** part_001 108-109: [let number: Numbers = Numbers.One;
    console.log(number)], on the object emitted for [Numbers]. *)
Definition number_script : option (list jsval) :=
  vs ← enum_values Numbers;
  let number := obj_get (emit ∅ vs) "One" in
  Some [number].

(** The reverse lookup [E[E.L]]: the name bound to the value of [L]. *)
Definition reverse_lookup (o : gmap string jsval) (l : string) : jsval :=
  match obj_get o l with
  | JNum n => obj_get o (prop_key n)
  | JStr s => obj_get o s
  | _ => JUndefined
  end.

End Enums.

(** ** [any] and [unknown] (part_001 150-162 and 183-203) *)

Module Dynamic.
Import Js.

(** The static types a variable of these sections has: its declared type
    [any] or [unknown], or the type a test narrows it to. *)
Inductive ty := TAny | TUnknown | TString | TNumber | TError.

(** What the scripts do with the variable [x]. *)
Inductive use :=
| CallMethod (m : string) (args : list jsval)   (* x.m(args) *)
| ReadProp (p : string).                        (* x.p *)

(** *** Checking stage *)

(** [x = v]: any value can be assigned to [any] and to [unknown]
    (part_001 152-154 and 185-187); [undefined] can be assigned to every
    type (the compiler's default, without strict null checks). *)
Definition check_assign (t : ty) (v : jsval) : bool :=
  match t with
  | TAny | TUnknown => true
  | TString => String.eqb (typeof v) "undefined" || String.eqb (typeof v) "string"
  | TNumber => String.eqb (typeof v) "undefined" || String.eqb (typeof v) "number"
  | TError => String.eqb (typeof v) "undefined" || instanceof_Error v
  end.

(** [y = x] for [x] of type [src] and [y] of type [dst]: [any] is
    assignable to every type (part_001 159), [unknown] only to [any] and
    [unknown] (part_001 191). *)
Definition assignable (src dst : ty) : bool :=
  match src, dst with
  | TAny, _ | _, TAny | _, TUnknown => true
  | TString, TString | TNumber, TNumber | TError, TError => true
  | _, _ => false
  end.

(** A member use: everything is accepted on [any] (part_001 136: "even if
    it doesn't exist at runtime"), nothing on [unknown] (part_001 190 and
    192: "Object is of type 'unknown'"), and on a narrowed type the
    members of that type. *)
Definition check_use (t : ty) (u : use) : bool :=
  match t with
  | TAny => true
  | TUnknown => false
  | TString =>
      match u with
      | CallMethod m [] => String.eqb m "toUpperCase"
      | CallMethod _ _ => false
      | ReadProp p => String.eqb p "length"
      end
  | TNumber =>
      match u with
      | CallMethod m [] | CallMethod m [JNum _] => String.eqb m "toFixed"
      | CallMethod _ _ => false
      | ReadProp _ => false
      end
  | TError =>
      match u with
      | ReadProp p => String.eqb p "message"
      | CallMethod _ _ => false
      end
  end.

(** The type of [x] inside [if (typeof x === tag)], for [x] declared
    [any] or [unknown] and the tags that the script tests; a type that is
    narrowed already is not narrowed again. *)
Definition narrow_typeof (t : ty) (tag : string) : ty :=
  match t with
  | TAny | TUnknown =>
      if String.eqb tag "string" then TString
      else if String.eqb tag "number" then TNumber
      else t
  | _ => t
  end.

(** The type of [x] inside [if (x instanceof Error)]. *)
Definition narrow_instanceof_Error (t : ty) : ty :=
  match t with
  | TAny | TUnknown => TError
  | _ => t
  end.

(** *** Execution stage *)

Definition exec_use (v : jsval) (u : use) : result jsval :=
  match u with
  | CallMethod m args => call_method v m args
  | ReadProp p => get_prop v p
  end.

Record state := State {
  stdout : list jsval;   (* console.log *)
  stderr : list jsval    (* console.error *)
}.

Definition init : state := {| stdout := []; stderr := [] |}.

Definition log (v : jsval) (st : state) : state :=
  {| stdout := stdout st ++ [v]; stderr := stderr st |}.

Definition log_error (v : jsval) (st : state) : state :=
  {| stdout := stdout st; stderr := stderr st ++ [v] |}.

(** part_001 150-162 *)
Definition any_uses : list use :=
  [CallMethod "toUpperCase" [];
   CallMethod "someNonExistentMethod" [];
   ReadProp "someNonExistentProperty"].

Definition any_script : result state :=
  let looselyTyped := JUndefined in
  let looselyTyped := JNum 5 in
  let looselyTyped := JStr "hello" in
  let looselyTyped := JObj {[ "id" := JNum 1 ]} in
  bind (call_method looselyTyped "toUpperCase" []) (λ r,
  let st := log r init in
  let myNum := looselyTyped in
  bind (call_method looselyTyped "someNonExistentMethod" []) (λ _,
  bind (get_prop looselyTyped "someNonExistentProperty") (λ r,
  Ok (log r st)))).

(** part_001 195-203, as a function of the value of [definitelyNotAny]. *)
Definition guarded (v : jsval) (st : state) : result state :=
  if String.eqb (typeof v) "string" then
    bind (call_method v "toUpperCase" []) (λ r,
    let myStr := v in
    Ok (log r st))
  else if String.eqb (typeof v) "number" then
    bind (call_method v "toFixed" [JNum 2]) (λ r, Ok (log r st))
  else if instanceof_Error v then
    bind (get_prop v "message") (λ r, Ok (log_error r st))
  else Ok st.

(** The checker on the same statement: each branch is checked with the
    type its test narrows the variable to. *)
Definition check_guarded (t : ty) : bool :=
  check_use (narrow_typeof t "string") (CallMethod "toUpperCase" [])
  && assignable (narrow_typeof t "string") TString
  && check_use (narrow_typeof t "number") (CallMethod "toFixed" [JNum 2])
  && check_use (narrow_instanceof_Error t) (ReadProp "message").

(** part_001 183-203 *)
Definition unknown_script : result state :=
  let definitelyNotAny := JUndefined in
  let definitelyNotAny := JNum 10 in
  let definitelyNotAny := JStr "world" in
  let definitelyNotAny := JObj {[ "name" := JStr "TS" ]} in
  guarded definitelyNotAny init.

End Dynamic.

(** ** The property names of an emitted enum object *)

Module EnumKeys.
Import Js Enums.

(** The integers that a number of the run time holds exactly, and on
    which its arithmetic and its conversion to a property name are those
    of the integers. *)
Definition safe_integer (n : Z) : bool :=
  (- 2 ^ 53 <? n)%Z && (n <? 2 ^ 53)%Z.

(** Members whose numeric values are all safe integers. *)
Definition safe_values (vs : list (string * evalue)) : Prop :=
  Forall (λ m, match snd m with
               | ENum n => safe_integer n = true
               | EStr _ => True
               end) vs.

(** The names under which [emit] stores the members: the labels. *)
Definition labels (vs : list (string * evalue)) : list string := fst <$> vs.

(** The names under which [emit] stores the reverse entries: one for each
    numeric member, none for a string member. *)
Definition reverse_keys (vs : list (string * evalue)) : list string :=
  omap (λ m, match snd m with
             | ENum n => Some (prop_key n)
             | EStr _ => None
             end) vs.

End EnumKeys.

(** * Properties *)

Import Js.

(** ** Arrays at run time *)

Section ArrayFacts.
Implicit Types (a : list jsval) (v : jsval) (i j : nat).

Lemma array_push_length a v :
  array_length (array_push a v) = S (array_length a).
Proof. unfold array_length, array_push. rewrite length_app. simpl. lia. Qed.

Lemma array_push_get_new a v :
  array_get (array_push a v) (array_length a) = v.
Proof.
  unfold array_get, array_push, array_length.
  by rewrite list_lookup_middle.
Qed.

Lemma array_push_get_old a v i :
  (i < array_length a)%nat → array_get (array_push a v) i = array_get a i.
Proof.
  unfold array_get, array_push, array_length. intros Hi.
  by rewrite lookup_app_l.
Qed.

Lemma array_get_in_range a i x :
  a !! i = Some x → array_get a i = x.
Proof. unfold array_get. by intros ->. Qed.

Lemma array_get_past_end a i :
  (array_length a ≤ i)%nat → array_get a i = JUndefined.
Proof.
  unfold array_get, array_length. intros Hi.
  by rewrite lookup_ge_None_2.
Qed.

Lemma array_set_inside_length a i v :
  (i < array_length a)%nat → array_length (array_set a i v) = array_length a.
Proof.
  unfold array_set, array_length. intros Hi.
  rewrite decide_True by done. apply length_insert.
Qed.

Lemma array_set_outside_length a i v :
  (array_length a ≤ i)%nat → array_length (array_set a i v) = S i.
Proof.
  unfold array_set, array_length. intros Hi.
  rewrite decide_False by lia.
  rewrite !length_app, length_replicate. simpl. lia.
Qed.

Lemma array_set_get_same a i v :
  array_get (array_set a i v) i = v.
Proof.
  unfold array_set, array_get.
  destruct (decide (i < length a)%nat) as [Hi|Hi].
  - by rewrite list_lookup_insert_eq.
  - rewrite app_assoc, list_lookup_middle; [done|].
    rewrite length_app, length_replicate. lia.
Qed.

Lemma array_set_get_other a i j v :
  (i < array_length a)%nat → i ≠ j →
  array_get (array_set a i v) j = array_get a j.
Proof.
  unfold array_set, array_get, array_length. intros Hi Hne.
  rewrite decide_True by done. by rewrite list_lookup_insert_ne.
Qed.
End ArrayFacts.

(** ** The array and tuple statements *)

Section ArrayStatements.
Import Arrays.


(** The runs of the scripts. *)
Lemma run_coord :
  run coord = Ok {| arr := [JNum 5; JNum 2; JNum 3]; stdout := [] |}.
Proof. reflexivity. Qed.

Lemma run_main_coord :
  run main_coord
  = Ok {| arr := [JNum 5; JNum 2; JNum 3]; stdout := [JNum 3; JNum 3] |}.
Proof. reflexivity. Qed.



(** main.ts 26-35 with line 31, the assignment of three elements, taken
    out. *)
Lemma run_main_direction_without_31 :
  run {| p_decl := p_decl main_direction;
         p_body := [SetIndex 0 5; Push 3; SetIndex 2 3; Assign [4; 5];
                    LogLength; LogIndex 0; LogIndex 1] |}
  = Ok {| arr := [JNum 4; JNum 5]; stdout := [JNum 2; JNum 4; JNum 5] |}.
Proof. reflexivity. Qed.


(** main.ts keeps two statements that the checker rejects. *)
Lemma rejected_main_direction :
  check_program main_direction = false
  ∧ rejected main_direction = [SetIndex 2 3; Assign [4; 5; 6]].
Proof. split; reflexivity. Qed.

(** C5: appending to the growable list is accepted by the checker and, at
    execution, makes the list exactly one element longer, with the
    appended number readable at the index equal to the previous length;
    nothing is printed. *)
Theorem push_appends_one (b : binding) (ini : list Z) (st : state) (v : Z) :
  check_stmt (Decl b NumArray ini) (Push v) = true
  ∧ ∃ st', exec_stmt (Push v) st = Ok st'
      ∧ array_length (arr st') = S (array_length (arr st))
      ∧ array_get (arr st') (array_length (arr st)) = JNum v
      ∧ stdout st' = stdout st.
Proof.
  split; [done|]. eexists. split; [reflexivity|]. simpl.
  by rewrite array_push_length, array_push_get_new.
Qed.

(** C9: on the growable list, reading at an index at or past the current
    length is accepted by the checker and does not throw: the read yields
    [undefined], which is what console.log receives, and the list is
    unchanged. *)
Theorem read_past_end_yields_undefined
    (b : binding) (ini : list Z) (st : state) (i : nat) :
  (array_length (arr st) ≤ i)%nat →
  check_stmt (Decl b NumArray ini) (LogIndex i) = true
  ∧ array_get (arr st) i = JUndefined
  ∧ exec_stmt (LogIndex i) st
    = Ok {| arr := arr st; stdout := stdout st ++ [JUndefined] |}.
Proof.
  intros Hi. split; [done|]. split; [by apply array_get_past_end|].
  simpl. by rewrite array_get_past_end.
Qed.

(** main.ts 11: [coord[3]] after the statements of main.ts 5-10. *)
Lemma read_past_end_yields_undefined_witness :
  exec_stmt (LogIndex 3)
    {| arr := [JNum 5; JNum 2; JNum 3]; stdout := [JNum 3; JNum 3] |}
  = Ok {| arr := [JNum 5; JNum 2; JNum 3];
          stdout := [JNum 3; JNum 3; JUndefined] |}.
Proof.
  apply (read_past_end_yields_undefined Const [1; 2]
           {| arr := [JNum 5; JNum 2; JNum 3]; stdout := [JNum 3; JNum 3] |} 3).
  simpl. lia.
Defined.




End ArrayStatements.

(** ** Validation of a direction token *)

Section DirectionValidation.
Import Literals.

(** The test of the [if] decides membership in the union. *)
Lemma is_direction_spec (input : string) :
  is_direction input = true ↔ input ∈ directions.
Proof.
  unfold is_direction, directions.
  rewrite !orb_true_iff, !String.eqb_eq, !elem_of_cons, elem_of_nil.
  tauto.
Qed.

(** The run-time test and the checker's rule for literals agree. *)
Lemma is_direction_check (input : string) :
  is_direction input = check_assign_literal input.
Proof.
  unfold check_assign_literal.
  destruct (is_direction input) eqn:H; symmetry.
  - apply bool_decide_eq_true. by apply is_direction_spec.
  - apply bool_decide_eq_false. intros Hin.
    apply is_direction_spec in Hin. congruence.
Qed.

Lemma script_binds_north :
  script = {| direction := JStr "north"; stderr := [] |}.
Proof. reflexivity. Qed.

(** C3: a candidate in the closed set is bound to the target and nothing
    is written to the error sink; a candidate outside the set leaves the
    target as it was (unbound, when the statement runs right after the
    declaration) and writes exactly one diagnostic to the error sink. *)
Theorem validate_closed_set (input : string) (st : state) :
  (input ∈ directions →
     validate input st = {| direction := JStr input; stderr := stderr st |})
  ∧ (input ∉ directions →
     validate input st
     = {| direction := direction st;
          stderr := stderr st ++ ["Invalid direction entered."] |}
     ∧ direction (validate input init) = JUndefined
     ∧ length (stderr (validate input init)) = 1%nat).
Proof.
  unfold validate. split; intros Hin.
  - apply is_direction_spec in Hin. by rewrite Hin.
  - destruct (is_direction input) eqn:H.
    + apply is_direction_spec in H. by destruct Hin.
    + done.
Qed.

(** "south" is accepted, "hello" (part_001 82) is not. *)
Lemma validate_closed_set_witness :
  validate "south" init = {| direction := JStr "south"; stderr := [] |}
  ∧ validate "hello" init
    = {| direction := JUndefined; stderr := ["Invalid direction entered."] |}.
Proof.
  split.
  - apply (validate_closed_set "south" init).
    apply list_elem_of_In. simpl. auto.
  - apply (validate_closed_set "hello" init).
    intros Hin. apply list_elem_of_In in Hin. simpl in Hin.
    intuition discriminate.
Defined.

End DirectionValidation.

(** ** Enums *)

Section EnumFacts.
Import Enums.

(** In every declaration, a member without initializer that follows a
    numeric member is bound to the value of that member plus one. *)
Lemma elaborate_successor (ms : list (string * initializer)) :
  ∀ next vs i l n l',
    elaborate next ms = Some vs →
    vs !! i = Some (l, ENum n) →
    ms !! S i = Some (l', NoInit) →
    vs !! S i = Some (l', ENum (n + 1)).
Proof.
  induction ms as [|[l0 i0] ms IH]; intros next vs i l n l' Hel Hi Hnext.
  { done. }
  assert (∃ v0 nxt vs', vs = (l0, v0) :: vs'
            ∧ elaborate nxt ms = Some vs'
            ∧ (∀ k, v0 = ENum k → nxt = Some (k + 1))) as (v0 & nxt & vs' & -> & Hel' & Hnxt).
  { simpl in Hel. destruct i0 as [|k|s].
    - destruct next as [k|]; [|done].
      destruct (elaborate (Some (k + 1)) ms) as [vs'|] eqn:E; [|done].
      inversion Hel; subst. exists (ENum k), (Some (k + 1)), vs'.
      split_and!; [done|done|]. intros ? [= ->]. done.
    - destruct (elaborate (Some (k + 1)) ms) as [vs'|] eqn:E; [|done].
      inversion Hel; subst. exists (ENum k), (Some (k + 1)), vs'.
      split_and!; [done|done|]. intros ? [= ->]. done.
    - destruct (elaborate None ms) as [vs'|] eqn:E; [|done].
      inversion Hel; subst. exists (EStr s), None, vs'.
      split_and!; [done|done|]. intros ? [=]. }
  destruct i as [|i]; simpl in *.
  - inversion Hi; subst. rewrite (Hnxt n eq_refl) in Hel'.
    destruct ms as [|[l1 i1] ms']; [done|].
    simpl in Hnext. inversion Hnext; subst. simpl in Hel'.
    destruct (elaborate (Some (n + 1 + 1)) ms') as [vs''|]; [|done].
    by inversion Hel'.
  - by eapply IH.
Qed.

(** A declaration without any initializer numbers its labels from 0. *)
Lemma elaborate_sequential (labels : list string) (k : Z) :
  elaborate (Some k) ((λ l, (l, NoInit)) <$> labels)
  = Some (imap (λ i l, (l, ENum (k + Z.of_nat i))) labels).
Proof.
  revert k. induction labels as [|l labels IH]; intros k; simpl; [done|].
  rewrite IH. simpl. rewrite Z.add_0_r. do 2 f_equal.
  apply imap_ext. intros i x _. simpl. do 2 f_equal. lia.
Qed.

(** A declaration seeded with a number on its first label counts on from
    that number. *)
Lemma elaborate_seeded (l : string) (k : Z) (labels : list string) (next : option Z) :
  elaborate next ((l, NumInit k) :: ((λ l, (l, NoInit)) <$> labels))
  = Some ((l, ENum k) :: imap (λ i l, (l, ENum (k + 1 + Z.of_nat i))) labels).
Proof. simpl. by rewrite elaborate_sequential. Qed.

(** Right after a numeric member is emitted, the reverse lookup of its
    label gives the label back. *)
Lemma emit_member_reverse (o : gmap string jsval) (l : string) (n : Z) :
  l ≠ prop_key n →
  reverse_lookup (emit_member o (l, ENum n)) l = JStr l.
Proof.
  intros Hne. unfold reverse_lookup, emit_member, obj_get.
  rewrite lookup_insert_ne by done. rewrite lookup_insert_eq. simpl.
  by rewrite lookup_insert_eq.
Qed.

(** The object emitted for the first declaration of [Size] is the one
    that part_000 builds. *)
Lemma emit_Size : emit ∅ <$> enum_values Size = Some Size_js.
Proof. reflexivity. Qed.

(** The string members of the merged [Size] have no reverse entry, and
    the numeric ones keep theirs. *)
Lemma Size_merged_reverse :
  ∃ o, Size_merged = Some o
    ∧ reverse_lookup o "Up" = JUndefined
    ∧ reverse_lookup o "Medium" = JStr "Medium".
Proof. eexists. split; [reflexivity|]. split; by vm_compute. Qed.

(** C2: the members of [Size], seeded with [Small = 100], are bound to
    100, 101 and 102, each one more than its predecessor; the emitted
    object holds these values, and reading [Size.Medium] yields 101, which
    is what the script prints. *)
Theorem Size_counts_from_seed :
  enum_values Size
  = Some [("Small", ENum 100); ("Medium", ENum (100 + 1));
          ("Large", ENum (100 + 1 + 1))]
  ∧ (enum_values Size ≫= λ vs, value_of vs "Medium") = Some (ENum 101)
  ∧ obj_get Size_js "Small" = JNum 100
  ∧ obj_get Size_js "Medium" = JNum 101
  ∧ obj_get Size_js "Large" = JNum 102
  ∧ size_script = [JNum 101].
Proof.
  split.
  - apply (elaborate_seeded "Small" 100 ["Medium"; "Large"] (Some 0)).
  - split_and!; by vm_compute.
Qed.

(** C4: the members of [Numbers], declared without initializer, are
    bound to their position counted from 0: [Zero] to 0 and every later
    label to one more than its predecessor; reading [Numbers.One] yields 1,
    which is what the script prints. *)
Theorem Numbers_counts_from_zero :
  enum_values Numbers
  = Some (imap (λ i l, (l, ENum (Z.of_nat i))) ["Zero"; "One"; "Two"; "Three"])
  ∧ (enum_values Numbers ≫= λ vs, value_of vs "Zero") = Some (ENum 0)
  ∧ (enum_values Numbers ≫= λ vs, value_of vs "One") = Some (ENum 1)
  ∧ number_script = Some [JNum 1].
Proof.
  split.
  - apply (elaborate_sequential ["Zero"; "One"; "Two"; "Three"] 0).
  - split_and!; by vm_compute.
Qed.

(** C10: for each label of the numeric [Size], looking up the value
    bound to the label in the emitted object and then looking that value
    up in the same object gives back the label's name. *)
Theorem Size_reverse_mapping (l : string) :
  l ∈ (fst <$> Size) → reverse_lookup Size_js l = JStr l.
Proof.
  simpl. rewrite !elem_of_cons, elem_of_nil.
  intros [->|[->|[->|[]]]]; by vm_compute.
Qed.

Lemma Size_reverse_mapping_witness :
  reverse_lookup Size_js "Medium" = JStr "Medium".
Proof.
  apply (Size_reverse_mapping "Medium").
  apply list_elem_of_In. simpl. auto.
Defined.

End EnumFacts.

(** ** [any] and [unknown] *)

Section DynamicValues.
Import Dynamic.

(** Calling a member that does not exist throws, whatever the value. *)
Lemma call_missing_method_throws (v : jsval) (m : string) (args : list jsval) :
  member v m = None → is_ok (call_method v m args) = false.
Proof.
  intros Hm. unfold call_method, get_prop. rewrite Hm.
  by destruct v.
Qed.

(** Reading a member that does not exist yields [undefined], except on
    [undefined] itself, where the read throws. *)
Lemma read_missing_prop (v : jsval) (p : string) :
  member v p = None →
  get_prop v p
  = match v with
    | JUndefined => Throw "TypeError: Cannot read properties of undefined"
    | _ => Ok JUndefined
    end.
Proof. intros Hm. unfold get_prop. rewrite Hm. by destruct v. Qed.

(** A use that the checker accepts on a string succeeds on every string. *)
Lemma string_use_succeeds (u : use) (s : string) :
  check_use TString u = true → is_ok (exec_use (JStr s) u) = true.
Proof.
  destruct u as [m [|a args]|p]; simpl; try done.
  by intros ->%String.eqb_eq.
Qed.

(** The script of the [any] section stops at its first call: the value is
    an object by then, and [toUpperCase] is not one of its members. *)
Lemma any_script_throws : any_script = Throw "TypeError: not a function".
Proof. by vm_compute. Qed.

(** The script of the [unknown] section passes the checker and runs to
    its end without printing: the value is an object by then. *)
Lemma unknown_script_runs :
  check_guarded TUnknown = true ∧ unknown_script = Ok init.
Proof. split; by vm_compute. Qed.

(** C6: on a variable of type [any], every assignment and every member
    use is accepted by the checker.  When the member does not exist on
    the value, the failure shows at execution only: the method call
    throws, and the property read yields [undefined] (on the value
    [undefined] itself the read throws as well). *)
Theorem any_defers_failure (v : jsval) (m p : string) (args : list jsval) :
  member v m = None →
  member v p = None →
  check_assign TAny v = true
  ∧ check_use TAny (CallMethod m args) = true
  ∧ check_use TAny (ReadProp p) = true
  ∧ is_ok (exec_use v (CallMethod m args)) = false
  ∧ exec_use v (ReadProp p)
    = match v with
      | JUndefined => Throw "TypeError: Cannot read properties of undefined"
      | _ => Ok JUndefined
      end.
Proof.
  intros Hm Hp. split_and!; try done.
  - by apply call_missing_method_throws.
  - by apply read_missing_prop.
Qed.

(** part_001 153 and 161-162, on the string "hello". *)
Lemma any_defers_failure_witness :
  is_ok (exec_use (JStr "hello") (CallMethod "someNonExistentMethod" [])) = false
  ∧ exec_use (JStr "hello") (ReadProp "someNonExistentProperty") = Ok JUndefined.
Proof.
  destruct (any_defers_failure (JStr "hello") "someNonExistentMethod"
              "someNonExistentProperty" [] eq_refl eq_refl)
    as (_ & _ & _ & Hcall & Hread).
  split.
  - exact Hcall.
  - exact Hread.
Defined.

(** C7: an operation of strings (a use that the checker accepts on type
    [string]) is rejected on a variable of type [unknown]; inside the
    branch of a [typeof] test for "string" the checker accepts it, and
    when the test succeeds at run time the operation succeeds: the value
    is a string, and the guarded statement of the script prints its upper
    case. *)
Theorem unknown_needs_narrowing (u : use) (v : jsval) (st : state) :
  check_use TString u = true →
  typeof v = "string" →
  check_use TUnknown u = false
  ∧ check_use (narrow_typeof TUnknown "string") u = true
  ∧ is_ok (exec_use v u) = true
  ∧ ∃ s, v = JStr s
      ∧ exec_use v (CallMethod "toUpperCase" []) = Ok (JStr (to_upper s))
      ∧ guarded v st = Ok (log (JStr (to_upper s)) st).
Proof.
  intros Hu Hv. destruct v as [|n|s|o|m|f]; try discriminate Hv.
  split_and!; [done|done|by apply string_use_succeeds|].
  exists s. split_and!; done.
Qed.

(** part_001 186 and 195-197, on the string "world". *)
Lemma unknown_needs_narrowing_witness :
  check_use TUnknown (CallMethod "toUpperCase" []) = false
  ∧ guarded (JStr "world") init = Ok (log (JStr "WORLD") init).
Proof.
  destruct (unknown_needs_narrowing (CallMethod "toUpperCase" [])
              (JStr "world") init eq_refl eq_refl)
    as (Hrej & _ & _ & s & Hs & _ & Hrun).
  split.
  - exact Hrej.
  - injection Hs as <-. exact Hrun.
Defined.

End DynamicValues.

(** ** The two stages side by side *)

Section FailureClasses.
Import Arrays.




End FailureClasses.

(** * Further properties of the scripts' operations *)

(** ** Arrays and tuples *)

Section MoreArrays.
Import Arrays.
Implicit Types (a : list jsval) (i j : nat).

(** X1: an element write followed by a read.  After [a[i] = v], whatever
    the index, the array reaches up to index [i] at least, reading index
    [i] gives [v], and reading any other index gives what it gave before
    (so the holes an out-of-range write leaves read [undefined]). *)
Theorem array_set_read_back a i (v : jsval) j :
  array_length (array_set a i v) = (array_length a `max` S i)%nat
  ∧ array_get (array_set a i v) j
    = if decide (j = i) then v else array_get a j.
Proof.
  split.
  - destruct (decide (i < array_length a)%nat) as [Hi|Hi].
    + rewrite array_set_inside_length by done. lia.
    + rewrite array_set_outside_length by lia. lia.
  - destruct (decide (j = i)) as [->|Hne]; [apply array_set_get_same|].
    destruct (decide (i < array_length a)%nat) as [Hi|Hi].
    { by apply array_set_get_other. }
    unfold array_set, array_get, array_length in *.
    rewrite decide_False by done.
    destruct (decide (j < length a)%nat) as [Hj|Hj].
    { by rewrite lookup_app_l. }
    rewrite lookup_app_r by lia.
    rewrite (lookup_ge_None_2 a j) by lia. simpl.
    destruct (decide (j < i)%nat) as [Hji|Hji].
    + rewrite lookup_app_l by (rewrite length_replicate; lia).
      rewrite lookup_replicate_2; [done|lia].
    + rewrite lookup_ge_None_2; [done|].
      rewrite length_app, length_replicate. simpl. lia.
Qed.

(** X2: appends compose.  Running [x.push(v)] for each number of a list,
    in order, never throws and leaves the array with those numbers added at
    its end, in the same order, and the output untouched. *)
Theorem pushes_append (vs : list Z) (st : state) :
  exec_stmts (Push <$> vs) st
  = Ok {| arr := arr st ++ numbers vs; stdout := stdout st |}.
Proof.
  revert st. induction vs as [|v vs IH]; intros st; simpl.
  - rewrite app_nil_r. by destruct st.
  - rewrite IH. simpl. unfold array_push, numbers.
    by rewrite <- app_assoc.
Qed.

(** X5: main.ts 28-29 in general.  On a tuple of arity [n] holding [n]
    elements, the write at index [n] is rejected by the checker, which
    goes by the declared arity; at execution, once a [push] has run, the
    same write is within the array: it replaces the pushed element and the
    array does not grow any further. *)
Theorem write_after_push_replaces (d : decl) (n : nat) (st : state) (v w : Z) :
  d_type d = NumTuple n →
  array_length (arr st) = n →
  check_stmt d (SetIndex n w) = false
  ∧ exec_stmts [Push v; SetIndex n w] st
    = Ok {| arr := arr st ++ [JNum w]; stdout := stdout st |}.
Proof.
  intros Ht Hlen. split.
  - simpl. rewrite Ht. apply bool_decide_eq_false. lia.
  - simpl. do 2 f_equal. unfold array_set, array_push, array_length in *.
    rewrite decide_True by (rewrite length_app; simpl; lia).
    rewrite <- Hlen.
    replace (length (arr st)) with (length (arr st) + 0)%nat at 1 by lia.
    by rewrite insert_app_r.
Qed.

Lemma write_after_push_replaces_witness :
  check_stmt (p_decl main_direction) (SetIndex 2 3) = false
  ∧ exec_stmts [Push 3; SetIndex 2 3] {| arr := [JNum 5; JNum 2]; stdout := [] |}
    = Ok {| arr := [JNum 5; JNum 2] ++ [JNum 3]; stdout := [] |}.
Proof.
  apply (write_after_push_replaces (p_decl main_direction) 2
           {| arr := [JNum 5; JNum 2]; stdout := [] |} 3 3); reflexivity.
Defined.

End MoreArrays.

(** ** Validation of a direction token *)

Section MoreValidation.
Import Literals.

(** X6: the validation and the checker agree.  The [if] statement binds
    its candidate to [direction], leaving the error sink as it was, for
    exactly the strings that the checker accepts as literals of the union
    type of [direction]. *)
Theorem validate_binds_what_checker_accepts (input : string) (st : state) :
  check_assign_literal input = true
  ↔ validate input st = {| direction := JStr input; stderr := stderr st |}.
Proof.
  rewrite <- is_direction_check. unfold validate.
  destruct (is_direction input); split; try done.
  intros [= _ Herr]. apply (f_equal length) in Herr.
  rewrite length_app in Herr. simpl in Herr. lia.
Qed.

(** Validating a list of candidates one after the other, from any state. *)
Lemma validate_fold (inputs : list string) :
  ∀ st,
    direction (foldl (λ st i, validate i st) st inputs)
    = from_option JStr (direction st) (last (filter (λ i, i ∈ directions) inputs))
    ∧ stderr (foldl (λ st i, validate i st) st inputs)
      = (stderr st
         ++ replicate (length (filter (λ i, i ∉ directions) inputs))
              "Invalid direction entered.")%list.
Proof.
  induction inputs as [|i inputs IH]; intros st; simpl.
  { by rewrite app_nil_r. }
  destruct (IH (validate i st)) as [Hd He]. rewrite Hd, He. clear IH Hd He.
  unfold validate. destruct (is_direction i) eqn:Hi; simpl.
  - apply is_direction_spec in Hi.
    rewrite filter_cons_True by done.
    rewrite (filter_cons_False (λ i, i ∉ directions)) by (intros H; by apply H).
    split; [|done]. rewrite last_cons.
    by destruct (last (filter (λ i0, i0 ∈ directions) inputs)).
  - assert (i ∉ directions) as Hn.
    { intros H. apply is_direction_spec in H. congruence. }
    rewrite filter_cons_False by done.
    rewrite (filter_cons_True (λ i, i ∉ directions)) by done.
    split; [done|]. simpl. by rewrite <- app_assoc.
Qed.

(** X7: validating several candidates one after the other, starting right
    after the declaration.  [direction] ends bound to the last candidate
    that belongs to the closed set, and unbound when none does; the error
    sink holds one diagnostic for each candidate outside the set, and
    nothing else. *)
Theorem validate_sequence (inputs : list string) :
  direction (foldl (λ st i, validate i st) init inputs)
  = from_option JStr JUndefined (last (filter (λ i, i ∈ directions) inputs))
  ∧ stderr (foldl (λ st i, validate i st) init inputs)
    = replicate (length (filter (λ i, i ∉ directions) inputs))
        "Invalid direction entered.".
Proof. apply (validate_fold inputs init). Qed.

End MoreValidation.

(** ** Enums *)

Section MoreEnums.
Import Enums EnumKeys.

(** A successful elaboration gives the members one by one. *)
Lemma elaborate_cons_inv (next : option Z) (l : string) (i : initializer)
    (ms : list (string * initializer)) (vs : list (string * evalue)) :
  elaborate next ((l, i) :: ms) = Some vs →
  ∃ v nxt vs', vs = (l, v) :: vs'
    ∧ elaborate nxt ms = Some vs'
    ∧ match i with
      | NoInit => ∃ k, next = Some k ∧ v = ENum k ∧ nxt = Some (k + 1)
      | NumInit k => v = ENum k ∧ nxt = Some (k + 1)
      | StrInit s => v = EStr s ∧ nxt = None
      end.
Proof.
  simpl. destruct i as [|k|s].
  - destruct next as [k|]; [|done].
    destruct (elaborate (Some (k + 1)) ms) as [vs'|] eqn:E; [|done].
    intros [= <-]. exists (ENum k), (Some (k + 1)), vs'. eauto 6.
  - destruct (elaborate (Some (k + 1)) ms) as [vs'|] eqn:E; [|done].
    intros [= <-]. exists (ENum k), (Some (k + 1)), vs'. eauto.
  - destruct (elaborate None ms) as [vs'|] eqn:E; [|done].
    intros [= <-]. exists (EStr s), None, vs'. eauto.
Qed.

(** X8: the auto-increment rule.  In a declaration that elaborates to
    safe integers, a member without initializer is bound to 0 when it is
    the first member, and to the value of the numeric member before it
    plus one otherwise, whether that member had an initializer or not. *)
Theorem auto_increment_rule (ms : list (string * initializer))
    (vs : list (string * evalue)) :
  enum_values ms = Some vs →
  safe_values vs →
  (∀ l, ms !! 0%nat = Some (l, NoInit) → vs !! 0%nat = Some (l, ENum 0))
  ∧ (∀ i l l' n, vs !! i = Some (l, ENum n) →
       ms !! S i = Some (l', NoInit) →
       vs !! S i = Some (l', ENum (n + 1))).
Proof.
  intros Hel _. split.
  - intros l Hl. destruct ms as [|[l0 i0] ms]; [done|].
    simpl in Hl. injection Hl as -> ->.
    apply elaborate_cons_inv in Hel as (v & nxt & vs' & -> & _ & k & [= <-] & -> & _).
    done.
  - intros i l l' n Hi Hn.
    exact (elaborate_successor ms (Some 0) vs i l n l' Hel Hi Hn).
Qed.

Lemma auto_increment_rule_witness :
  ∃ vs, enum_values Size = Some vs
    ∧ vs !! 1%nat = Some ("Medium", ENum (100 + 1)).
Proof.
  exists [("Small", ENum 100); ("Medium", ENum 101); ("Large", ENum 102)].
  split; [reflexivity|].
  apply (auto_increment_rule Size
           [("Small", ENum 100); ("Medium", ENum 101); ("Large", ENum 102)]
           eq_refl) with (l := "Small"); [|reflexivity|reflexivity].
  repeat constructor.
Defined.

(** X9: elaboration keeps the declaration.  The elaborated members carry
    the labels of the declaration, in the same order, and a member that has
    an initializer is bound to exactly that number or string. *)
Theorem elaborate_keeps_initializers (ms : list (string * initializer)) :
  ∀ next vs,
    elaborate next ms = Some vs →
    labels vs = fst <$> ms
    ∧ (∀ i l k, ms !! i = Some (l, NumInit k) → vs !! i = Some (l, ENum k))
    ∧ (∀ i l s, ms !! i = Some (l, StrInit s) → vs !! i = Some (l, EStr s)).
Proof.
  induction ms as [|[l0 i0] ms IH]; intros next vs Hel.
  { simpl in Hel. injection Hel as <-. done. }
  apply elaborate_cons_inv in Hel as (v & nxt & vs' & -> & Hel' & Hv).
  destruct (IH _ _ Hel') as (Hl & Hn & Hs). split_and!.
  - unfold labels in *. rewrite !fmap_cons. simpl. by f_equal.
  - intros [|i] l k; simpl; [|by apply Hn].
    intros [= -> ->]. by destruct Hv as [-> _].
  - intros [|i] l s; simpl; [|by apply Hs].
    intros [= -> ->]. by destruct Hv as [-> _].
Qed.

Lemma elaborate_keeps_initializers_witness :
  ∃ vs, elaborate (Some 0) Size_strings = Some vs
    ∧ labels vs = ["Up"; "Down"; "Left"; "Right"].
Proof.
  eexists. split; [reflexivity|].
  apply (elaborate_keeps_initializers Size_strings (Some 0)). reflexivity.
Defined.

(** Emitting members leaves alone every property whose name is neither a
    label nor a reverse key of these members. *)
Lemma emit_lookup_other (vs : list (string * evalue)) :
  ∀ (o : gmap string jsval) (k : string),
    k ∉ labels vs → k ∉ reverse_keys vs →
    emit o vs !! k = o !! k.
Proof.
  unfold emit, labels, reverse_keys.
  induction vs as [|[l v] vs IH]; intros o k Hl Hr; simpl; [done|].
  simpl in Hl. apply not_elem_of_cons in Hl as [Hkl Hl].
  destruct v as [n|s]; simpl in Hr.
  - apply not_elem_of_cons in Hr as [Hkn Hr].
    rewrite IH by done. by rewrite !lookup_insert_ne.
  - rewrite IH by done. by rewrite lookup_insert_ne.
Qed.

(** X12: the names of the emitted object.  After members whose numeric
    values are safe integers are emitted, the object has the properties it
    had, one property for each label, and one for the decimal form of each
    numeric value; a string member adds its label and nothing else. *)
Theorem emit_dom (vs : list (string * evalue)) (o : gmap string jsval) :
  safe_values vs →
  dom (emit o vs)
  = dom o ∪ list_to_set (labels vs) ∪ list_to_set (reverse_keys vs).
Proof.
  intros _. revert o. induction vs as [|[l v] vs IH]; intros o.
  { apply set_eq. intros x. unfold emit, labels, reverse_keys. simpl.
    rewrite !elem_of_union, !elem_of_empty. tauto. }
  change (emit o ((l, v) :: vs)) with (emit (emit_member o (l, v)) vs).
  rewrite IH. apply set_eq. intros x.
  destruct v as [n|s].
  - change (reverse_keys ((l, ENum n) :: vs)) with (prop_key n :: reverse_keys vs).
    change (labels ((l, ENum n) :: vs)) with (l :: labels vs).
    simpl. rewrite !dom_insert_L.
    repeat first [ rewrite elem_of_union | rewrite elem_of_list_to_set
                 | rewrite elem_of_cons | rewrite elem_of_singleton ].
    tauto.
  - change (reverse_keys ((l, EStr s) :: vs)) with (reverse_keys vs).
    change (labels ((l, EStr s) :: vs)) with (l :: labels vs).
    simpl. rewrite !dom_insert_L.
    repeat first [ rewrite elem_of_union | rewrite elem_of_list_to_set
                 | rewrite elem_of_cons | rewrite elem_of_singleton ].
    tauto.
Qed.

Lemma emit_dom_witness :
  dom (emit ∅ [("Small", ENum 100); ("Medium", ENum 101); ("Large", ENum 102)])
  = dom (∅ : gmap string jsval)
    ∪ list_to_set (labels [("Small", ENum 100); ("Medium", ENum 101);
                                ("Large", ENum 102)])
    ∪ list_to_set (reverse_keys [("Small", ENum 100); ("Medium", ENum 101);
                                 ("Large", ENum 102)]).
Proof.
  apply (emit_dom [("Small", ENum 100); ("Medium", ENum 101); ("Large", ENum 102)] ∅).
  repeat constructor.
Defined.

(** X13: the round trip of a numeric member.  When the numeric values of
    the emitted members are safe integers, and the labels and the reverse
    keys are pairwise different names, a numeric member [L = n] can be
    read in both directions on the emitted object: [E.L] is [n], [E[n]] is
    ["L"], and so [E[E.L]] is ["L"]. *)
Theorem emit_round_trip (vs : list (string * evalue)) :
  ∀ (o : gmap string jsval) (l : string) (n : Z),
    safe_values vs →
    NoDup (labels vs ++ reverse_keys vs) →
    (l, ENum n) ∈ vs →
    obj_get (emit o vs) l = JNum n
    ∧ obj_get (emit o vs) (prop_key n) = JStr l
    ∧ reverse_lookup (emit o vs) l = JStr l.
Proof.
  induction vs as [|[l0 v0] vs IH]; intros o l n Hsafe Hnd Hin.
  { by apply elem_of_nil in Hin. }
  assert (safe_values vs) as Hsafe'.
  { unfold safe_values in *. by apply Forall_cons in Hsafe as [_ ?]. }
  assert (NoDup (labels vs ++ reverse_keys vs)) as Hnd'.
  { unfold labels, reverse_keys in *. simpl in Hnd.
    apply NoDup_cons in Hnd as [_ Hnd].
    destruct v0; simpl in Hnd; [|done].
    apply NoDup_app in Hnd as (H1 & H2 & H3).
    apply NoDup_app. split_and!; [done| |by apply NoDup_cons in H3 as [_ ?]].
    intros x Hx Hx'. apply (H2 x Hx). by right. }
  assert (obj_get (emit o ((l0, v0) :: vs)) l = JNum n
          ∧ obj_get (emit o ((l0, v0) :: vs)) (prop_key n) = JStr l) as [Hfw Hbw].
  { apply elem_of_cons in Hin as [[= <- <-]|Hin].
    - unfold labels, reverse_keys in Hnd. simpl in Hnd.
      apply NoDup_cons in Hnd as [Hl Hnd].
      apply not_elem_of_app in Hl as [Hl1 Hl2].
      apply not_elem_of_cons in Hl2 as [Hne Hl2].
      apply NoDup_app in Hnd as (_ & Hdisj & Hk).
      apply NoDup_cons in Hk as [Hk _].
      unfold obj_get. change (emit o ((l, ENum n) :: vs))
        with (emit (emit_member o (l, ENum n)) vs).
      rewrite !emit_lookup_other; try done.
      + simpl. rewrite lookup_insert_ne by done.
        by rewrite !lookup_insert_eq.
      + intros Hx. apply (Hdisj _ Hx). by left.
    - change (emit o ((l0, v0) :: vs)) with (emit (emit_member o (l0, v0)) vs).
      by destruct (IH (emit_member o (l0, v0)) l n Hsafe' Hnd' Hin) as (? & ? & _). }
  split_and!; [done|done|].
  unfold reverse_lookup. by rewrite Hfw.
Qed.

Lemma emit_round_trip_witness :
  reverse_lookup
    (emit ∅ [("Small", ENum 100); ("Medium", ENum 101); ("Large", ENum 102)])
    "Large" = JStr "Large".
Proof.
  apply (emit_round_trip
           [("Small", ENum 100); ("Medium", ENum 101); ("Large", ENum 102)]
           ∅ "Large" 102).
  - repeat constructor.
  - apply (bool_decide_unpack _). vm_compute. exact I.
  - do 2 right. left.
Defined.

(** X14: merging a declaration of string members (part_001 121-126).
    Emitting string members with pairwise different labels into an object
    binds each label to its string, and every property under another name
    reads as it did before. *)
Theorem emit_strings_merge (vs : list (string * evalue)) (o : gmap string jsval) :
  reverse_keys vs = [] →
  NoDup (labels vs) →
  (∀ l s, (l, EStr s) ∈ vs → obj_get (emit o vs) l = JStr s)
  ∧ (∀ k, k ∉ labels vs → obj_get (emit o vs) k = obj_get o k).
Proof.
  intros Hkeys Hnd. split.
  - revert o Hkeys Hnd. induction vs as [|[l0 v0] vs IH]; intros o Hkeys Hnd l s Hin.
    { by apply elem_of_nil in Hin. }
    destruct v0 as [n|s0]; [done|].
    change (reverse_keys ((l0, EStr s0) :: vs)) with (reverse_keys vs) in Hkeys.
    change (labels ((l0, EStr s0) :: vs)) with (l0 :: labels vs) in Hnd.
    apply NoDup_cons in Hnd as [Hl0 Hnd].
    change (emit o ((l0, EStr s0) :: vs)) with (emit (<[l0 := JStr s0]> o) vs).
    apply elem_of_cons in Hin as [[= <- <-]|Hin].
    + unfold obj_get. rewrite emit_lookup_other.
      * by rewrite lookup_insert_eq.
      * done.
      * rewrite Hkeys. apply not_elem_of_nil.
    + by apply IH.
  - intros k Hk. unfold obj_get. rewrite emit_lookup_other; [done|done|].
    rewrite Hkeys. apply not_elem_of_nil.
Qed.

Lemma emit_strings_merge_witness :
  obj_get (emit Size_js [("Up", EStr "UP"); ("Down", EStr "DOWN")]) "Medium"
  = obj_get Size_js "Medium".
Proof.
  apply (emit_strings_merge [("Up", EStr "UP"); ("Down", EStr "DOWN")] Size_js).
  - reflexivity.
  - apply (bool_decide_unpack _). vm_compute. exact I.
  - apply (bool_decide_unpack _). vm_compute. exact I.
Defined.

End MoreEnums.

(** ** The guarded use of an [unknown] value *)

Section MoreDynamic.
Import Dynamic.

(** X15: the guarded statement never throws.  Whatever value the
    [unknown] variable holds, the statement of part_001 195-203 runs to its
    end: for a string and for a number exactly one string is added to the
    output and the error sink is left as it was; for an error its message
    is added to the error sink and the output is left as it was; for any
    other value neither sink changes. *)
Theorem guarded_never_throws (v : jsval) (st : state) :
  ∃ st', guarded v st = Ok st'
    ∧ match v with
      | JStr _ | JNum _ =>
          (∃ s, stdout st' = (stdout st ++ [JStr s])%list) ∧ stderr st' = stderr st
      | JError m =>
          stdout st' = stdout st ∧ stderr st' = (stderr st ++ [JStr m])%list
      | _ => stdout st' = stdout st ∧ stderr st' = stderr st
      end.
Proof.
  destruct v as [|n|s|o|m|f]; (eexists; split; [reflexivity|]); simpl; eauto.
Qed.

End MoreDynamic.
